(** * Order creation, ranking and fill of the connect starter project

    A shallow embedding of [src/index.ts] ([mainAsync]): the order objects
    built by object spread, the fan-out of order-creation tasks joined by
    [Promise.all], and the ranking of the fetched bids by
    [Array.prototype.sort] with a comparator on [BigNumber] quotients. *)

From Stdlib Require Import ZArith Lia List Sorted.
From stdpp Require Import base numbers option list gmap strings fin_maps.

Local Open Scope Z_scope.

(** ** bignumber.js values

    The program builds its rates with [new BigNumber(a).div(new BigNumber(b))]
    and compares them with [comparedTo].  Both are library calls; they are
    embedded here with the library's default configuration, which the
    program never changes: quotients are rounded to [DECIMAL_PLACES = 20]
    decimal places with rounding mode [ROUND_HALF_UP] (nearest neighbour,
    ties away from zero). *)
Module BigNumber.

Definition DECIMAL_PLACES : nat := 20.

(** One unit is [10 ^ -DECIMAL_PLACES]. *)
Definition scale : Z := 10 ^ Z.of_nat DECIMAL_PLACES.

(** A value with at most [DECIMAL_PLACES] decimals is [Finite u], standing
    for [u / scale]; the sign of a zero is not recorded, since neither
    [div] by a non-zero value nor [comparedTo] tells the two zeros apart. *)
Inductive t : Type :=
| NaN
| Infinity (negative : bool)
| Finite (units : Z).

(** [new BigNumber(n)] for an integer amount [n]. *)
Definition of_Z (n : Z) : t := Finite (n * scale).

(** [x / y] to the nearest integer, ties away from zero ([y <> 0]). *)
Definition round_half_up (x y : Z) : Z :=
  Z.sgn x * Z.sgn y * ((2 * Z.abs x + Z.abs y) / (2 * Z.abs y)).

Definition negative (x : t) : bool :=
  match x with
  | NaN => false
  | Infinity n => n
  | Finite u => u <? 0
  end.

(** [x.div(y)] *)
Definition div (x y : t) : t :=
  match x, y with
  | NaN, _ | _, NaN => NaN
  | Infinity _, Infinity _ => NaN
  | Infinity nx, Finite _ => Infinity (xorb nx (negative y))
  | Finite _, Infinity _ => Finite 0
  | Finite ux, Finite uy =>
      if uy =? 0 then
        if ux =? 0 then NaN else Infinity (xorb (negative x) (negative y))
      else Finite (round_half_up (ux * scale) uy)
  end.

(** [x.comparedTo(y)]: [1], [-1], [0], or [null] when either is [NaN]. *)
Definition comparedTo (x y : t) : option Z :=
  match x, y with
  | NaN, _ | _, NaN => None
  | Infinity nx, Infinity ny =>
      Some (if nx then (if ny then 0 else -1) else (if ny then 1 else 0))
  | Infinity nx, Finite _ => Some (if nx then -1 else 1)
  | Finite _, Infinity ny => Some (if ny then 1 else -1)
  | Finite ux, Finite uy =>
      Some (match ux ?= uy with Lt => -1 | Eq => 0 | Gt => 1 end)
  end.

#[export] Instance t_eq_dec : EqDecision t.
Proof. solve_decision. Defined.

End BigNumber.

(** ** Arrays

    [Array.prototype.sort(comparefn)] sorts in place and returns the array
    it was called on.  The language prescribes a stable sort whenever
    [comparefn] is a consistent comparison on the elements; for such a
    comparator the result is determined, and it is computed here by a
    stable insertion sort.  ([SortCompare] is the language's wrapper around
    the comparator: a [null] result converts to [+0].) *)
Module JsArray.

Section Sort.
Context {A : Type} (comparefn : A → A → option Z).

Definition SortCompare (x y : A) : Z := default 0 (comparefn x y).

Fixpoint insert (x : A) (l : list A) : list A :=
  match l with
  | [] => [x]
  | y :: l' => if SortCompare x y <=? 0 then x :: y :: l' else y :: insert x l'
  end.

Fixpoint sorted_list (l : list A) : list A :=
  match l with
  | [] => []
  | x :: l' => insert x (sorted_list l')
  end.
End Sort.

(** Arrays are objects: a variable holds a reference into the store. *)
Definition ref : Type := positive.

Section Store.
Context {A : Type}.

Definition sort (comparefn : A → A → option Z) (a : ref)
    (σ : gmap ref (list A)) : ref * gmap ref (list A) :=
  (a, alter (sorted_list comparefn) a σ).

Definition read (a : ref) (σ : gmap ref (list A)) : list A :=
  default [] (σ !! a).
End Store.

End JsArray.

(** ** Orders of the order book *)

Module Signature.
Record ECSignature : Type := {
  v : Z;
  r : string;
  s : string;
}.
End Signature.
Export Signature (ECSignature).

Record SignedOrder : Type := {
  exchangeContractAddress : string;
  maker : string;
  taker : string;
  makerTokenAddress : string;
  takerTokenAddress : string;
  makerTokenAmount : Z;
  takerTokenAmount : Z;
  makerFee : Z;
  takerFee : Z;
  feeRecipient : string;
  expirationUnixTimestampSec : Z;
  salt : Z;
  ecSignature : ECSignature;
}.

Record OrderbookResponse : Type := {
  bids : JsArray.ref;
  asks : JsArray.ref;
}.

Module OrderBook.

(** [(new BigNumber(o.makerTokenAmount)).div(new BigNumber(o.takerTokenAmount))] *)
Definition orderRate (o : SignedOrder) : BigNumber.t :=
  BigNumber.div (BigNumber.of_Z (makerTokenAmount o))
                (BigNumber.of_Z (takerTokenAmount o)).

(** The quotient of an entry with a non-zero taker amount, in units. *)
Definition rateUnits (o : SignedOrder) : Z :=
  BigNumber.round_half_up (makerTokenAmount o * BigNumber.scale)
                          (takerTokenAmount o).

(** The comparator handed to [sort]: [orderRateB.comparedTo(orderRateA)]. *)
Definition compareOrders (orderA orderB : SignedOrder) : option Z :=
  BigNumber.comparedTo (orderRate orderB) (orderRate orderA).

(** The sequence [bestOrders] as a function of the fetched bids. *)
Definition rank (entries : list SignedOrder) : list SignedOrder :=
  JsArray.sorted_list compareOrders entries.

(** [const bestOrders = orderbookResponse.bids.sort(...)] on the store. *)
Definition bestOrders (resp : OrderbookResponse)
    (σ : gmap JsArray.ref (list SignedOrder))
  : JsArray.ref * gmap JsArray.ref (list SignedOrder) :=
  JsArray.sort compareOrders (bids resp) σ.

(** An entry with the given amounts; the remaining fields take no part in
    ranking. *)
Definition entry (makerAmount takerAmount : Z) : SignedOrder :=
  {| exchangeContractAddress := ""; maker := ""; taker := "";
     makerTokenAddress := ""; takerTokenAddress := "";
     makerTokenAmount := makerAmount; takerTokenAmount := takerAmount;
     makerFee := 0; takerFee := 0; feeRecipient := "";
     expirationUnixTimestampSec := 0; salt := 0;
     ecSignature := {| Signature.v := 0; Signature.r := ""; Signature.s := "" |} |}.

End OrderBook.


Module OrderBookAggregator.

(** Modelled from the spec: the usability test of [validate] (section 4.3)
    on amounts and expiration.  [src/index.ts] has no such step: the
    fetched bids go to [sort] as they are. *)
Definition validate (e : SignedOrder) (nowTimestamp : Z) : bool :=
  (0 <? makerTokenAmount e) && (0 <? takerTokenAmount e)
  && (nowTimestamp <? expirationUnixTimestampSec e).

(** The comparison the spec words for [rank]: the order of the exact
    rates [makerAmount / takerAmount] of two entries with positive taker
    amounts, decided by cross-multiplication of the two fractions. *)
Definition compareExactRates (a b : SignedOrder) : comparison :=
  makerTokenAmount a * takerTokenAmount b
    ?= makerTokenAmount b * takerTokenAmount a.

End OrderBookAggregator.

(** ** Fill planning

    The program hands the ranked sequence to the settlement library in one
    call, [zeroEx.exchange.fillOrdersUpToAsync(bestOrders, zrxAmount, true,
    zrxOwnerAddress)]; the planning itself is not part of [src/index.ts]. *)
Module FillExecutor.

(** Modelled from the spec: the two failures of [planFill] (section 4.4). *)
Inductive FillError : Type :=
| InvalidTarget
| InsufficientLiquidity.

(** Modelled from the spec: the plan of section 3, pairs of an entry and the
    taker amount allocated from it. *)
Definition RankedFillPlan : Type := list (SignedOrder * Z).

(** Modelled from the spec: the walk of [planFill] (section 4.4), whose code
    is in the settlement library and not under [src/].  The ranked sequence
    is walked in order with the running total of allocated taker quantity;
    the entry with which the running total reaches the target ends the
    walk, allocated the remainder needed when [allowPartial] and its full
    amount otherwise; running out of entries is [InsufficientLiquidity]. *)
Fixpoint walk (rankedEntries : list SignedOrder) (runningTotal target : Z)
    (allowPartial : bool) : FillError + RankedFillPlan :=
  match rankedEntries with
  | [] => inl InsufficientLiquidity
  | e :: rest =>
      if target <=? runningTotal + takerTokenAmount e then
        inr [(e, if allowPartial then target - runningTotal
                 else takerTokenAmount e)]
      else
        match walk rest (runningTotal + takerTokenAmount e) target allowPartial with
        | inl err => inl err
        | inr plan => inr ((e, takerTokenAmount e) :: plan)
        end
  end.

(** Modelled from the spec: [planFill] (section 4.4), absent from [src/]:
    [InvalidTarget] for a target that is not positive, the walk from a
    running total of zero otherwise. *)
Definition planFill (rankedEntries : list SignedOrder)
    (targetTakerQuantity : Z) (allowPartial : bool)
  : FillError + RankedFillPlan :=
  if targetTakerQuantity <=? 0 then inl InvalidTarget
  else walk rankedEntries 0 targetTakerQuantity allowPartial.

Definition totalAllocated (plan : RankedFillPlan) : Z :=
  foldr (λ p acc, p.2 + acc) 0 plan.

Definition totalAvailable (entries : list SignedOrder) : Z :=
  foldr (λ e acc, takerTokenAmount e + acc) 0 entries.

(** The plan that takes every entry of [filled] in full. *)
Definition fullAllocations (filled : list SignedOrder) : RankedFillPlan :=
  map (λ x, (x, takerTokenAmount x)) filled.

End FillExecutor.

(** ** Order creation

    Orders are plain objects assembled by object literals and spread; an
    object is a finite map from property names to values. *)
Inductive JsValue : Type :=
| JString (str : string)
| JBigNumber (n : Z)
| JSignature (sig : ECSignature).

Module OrderFactory.

(** [{...a, ...b}]: the properties of [a], overridden by those of [b]. *)
Definition spread (a b : gmap string JsValue) : gmap string JsValue := b ∪ a.

Definition DECIMALS : Z := 18.
Definition NULL_ADDRESS : string := "0x0000000000000000000000000000000000000000".

(** [ZeroEx.toBaseUnitAmount(new BigNumber(amount), decimals)] *)
Definition toBaseUnitAmount (amount decimals : Z) : Z := amount * 10 ^ decimals.

(** The contract addresses read at start-up. *)
Record Contracts : Type := {
  WETH_ADDRESS : string;
  ZRX_ADDRESS : string;
  EXCHANGE_ADDRESS : string;
}.

(** What one run of the callback draws from its environment: the maker
    [address], the value of [Date.now()] (milliseconds since the epoch)
    and the generated salt.  [Date.now() + 3600000] is a sum of numbers,
    exact on integers of this size, and [new BigNumber] takes a number of
    up to 15 significant digits as it is. *)
Record Draw : Type := {
  address : string;
  now : Z;
  pseudoRandomSalt : Z;
}.

(** The object literal [feesRequest] of the callback at position [index]. *)
Definition feesRequest (c : Contracts) (index : nat) (d : Draw)
  : gmap string JsValue :=
  let exchangeRate := (Z.of_nat index + 1) * 10 in
  let makerTokenAmount := toBaseUnitAmount 5 DECIMALS in
  let takerTokenAmount := makerTokenAmount * exchangeRate in
  <["exchangeContractAddress" := JString (EXCHANGE_ADDRESS c)]>
  (<["maker" := JString (address d)]>
  (<["taker" := JString NULL_ADDRESS]>
  (<["makerTokenAddress" := JString (WETH_ADDRESS c)]>
  (<["takerTokenAddress" := JString (ZRX_ADDRESS c)]>
  (<["makerTokenAmount" := JBigNumber makerTokenAmount]>
  (<["takerTokenAmount" := JBigNumber takerTokenAmount]>
  (<["expirationUnixTimestampSec" := JBigNumber (now d + 3600000)]>
  (<["salt" := JBigNumber (pseudoRandomSalt d)]> ∅)))))))).


Definition feeFields : list string := ["feeRecipient"; "makerFee"; "takerFee"].

(** An object of type [FeesResponse] has the fee properties only. *)
Definition isFeesResponse (o : gmap string JsValue) : Prop :=
  ∀ k, is_Some (o !! k) → k ∈ feeFields.

(** *** Asynchronous tasks

    An [async] function runs until its next [await], where it hands a
    request to a collaborator and is resumed with the response, or
    rejected when the awaited promise rejects. *)
Inductive Request : Type → Type :=
| GetFees (request : gmap string JsValue) : Request (gmap string JsValue)
| SignOrderHash (orderHash signer : string) : Request ECSignature
| SubmitOrder (signedOrder : gmap string JsValue) : Request unit.

(** What a rejected request throws in the task that awaits it; the program
    handles every [err] alike, the errors are told apart by the request
    that failed. *)
Inductive Error : Type :=
| FeeRequestFailure
| SigningFailure
| SubmitFailure.

Inductive Async (A : Type) : Type :=
| Return (a : A)
| Throw (err : Error)
| Await {B : Type} (rq : Request B) (k : B → Async A).
Arguments Return {A} a.
Arguments Throw {A} err.
Arguments Await {A B} rq k.

Fixpoint bind {A B : Type} (t : Async A) (f : A → Async B) : Async B :=
  match t with
  | Return a => f a
  | Throw err => Throw err
  | Await rq k => Await rq (λ b, bind (k b) f)
  end.

Definition await {B : Type} (rq : Request B) : Async B := Await rq Return.

#[export] Instance Async_bind : MBind Async := λ A B f t, bind t f.

(** The collaborators: the relayer client, the signer, the order hash.
    Each answers a request by what the request holds; [None] is a promise
    that rejects. *)
Record Collaborators : Type := {
  getFeesAsync : gmap string JsValue → option (gmap string JsValue);
  getOrderHashHex : gmap string JsValue → string;
  signOrderHashAsync : string → string → option ECSignature;
  submitOrderAsync : gmap string JsValue → option unit;
}.

(** The callback of [wethOwnerAddresses.map(async (address, index) => ...)]. *)
Definition createOrder (c : Contracts) (env : Collaborators) (index : nat)
    (d : Draw) : Async unit :=
  let feesRequest := feesRequest c index d in
  feesResponse ← await (GetFees feesRequest);
  let order := spread feesRequest feesResponse in
  let orderHash := getOrderHashHex env order in
  ecSignature ← await (SignOrderHash orderHash (address d));
  let signedOrder := <["ecSignature" := JSignature ecSignature]> order in
  await (SubmitOrder signedOrder).

(** The collaborator's answer to a request, [None] for a rejection, and
    the error a rejection raises in the awaiting task. *)
Definition respond (env : Collaborators) {B : Type} (rq : Request B) : option B :=
  match rq in Request T return option T with
  | GetFees request => getFeesAsync env request
  | SignOrderHash orderHash signer => signOrderHashAsync env orderHash signer
  | SubmitOrder signedOrder => submitOrderAsync env signedOrder
  end.

Definition failure {B : Type} (rq : Request B) : Error :=
  match rq with
  | GetFees _ => FeeRequestFailure
  | SignOrderHash _ _ => SigningFailure
  | SubmitOrder _ => SubmitFailure
  end.

(** The orders a request adds to the relayer's book when it succeeds. *)
Definition accepted {B : Type} (rq : Request B) : list (gmap string JsValue) :=
  match rq with
  | SubmitOrder signedOrder => [signedOrder]
  | _ => []
  end.

(** A task resumed with the response to its pending request. *)
Definition resume (env : Collaborators) {A : Type} (t : Async A) : Async A :=
  match t with
  | Await rq k =>
      match respond env rq with
      | Some b => k b
      | None => Throw (failure rq)
      end
  | _ => t
  end.

Definition submits (env : Collaborators) {A : Type} (t : Async A)
  : list (gmap string JsValue) :=
  match t with
  | Await rq _ =>
      match respond env rq with
      | Some _ => accepted rq
      | None => []
      end
  | _ => []
  end.


Fixpoint submissions (env : Collaborators) {A : Type} (t : Async A)
  : list (gmap string JsValue) :=
  match t with
  | Await rq k =>
      match respond env rq with
      | Some b => accepted rq ++ submissions env (k b)
      | None => []
      end
  | _ => []
  end.

(** *** The fan-out and its join

    [await Promise.all(wethOwnerAddresses.map(async ...))] inside the
    [try] block of [mainAsync].  [map] starts every task; each runs to
    its first [await].  Responses then arrive in some order, one task
    resumed at a time.  [Promise.all] rejects with the first rejection
    among its tasks, which takes [mainAsync] to its [catch] block
    ([console.log(err)]); it fulfils when every task has fulfilled and
    [mainAsync] goes on to the order book. *)
Inductive MainState : Type :=
| AwaitingAll
| Caught (err : Error)
| OrdersCreated.

Record World : Type := {
  tasks : list (Async unit);
  relayerOrders : list (gmap string JsValue);
  console : list Error;
  main : MainState;
}.

Definition fulfilled (t : Async unit) : bool :=
  match t with Return _ => true | _ => false end.

Definition pending {A : Type} (t : Async A) : bool :=
  match t with Await _ _ => true | _ => false end.

(** The reaction of [Promise.all] and of [mainAsync] to a task that has
    just become [t'] in the task list [ts]. *)
Definition join (t' : Async unit) (ts : list (Async unit)) (w : World) : World :=
  match main w, t' with
  | AwaitingAll, Throw err =>
      {| tasks := ts; relayerOrders := relayerOrders w;
         console := console w ++ [err]; main := Caught err |}
  | AwaitingAll, Return _ =>
      {| tasks := ts; relayerOrders := relayerOrders w; console := console w;
         main := if forallb fulfilled ts then OrdersCreated else AwaitingAll |}
  | _, _ =>
      {| tasks := ts; relayerOrders := relayerOrders w; console := console w;
         main := main w |}
  end.

(** The response to the pending request of task [i] arrives. *)
Definition deliver (env : Collaborators) (w : World) (i : nat) : World :=
  match tasks w !! i with
  | Some t =>
      if pending t then
        let t' := resume env t in
        join t' (<[i := t']> (tasks w))
          {| tasks := tasks w;
             relayerOrders := relayerOrders w ++ submits env t;
             console := console w; main := main w |}
      else w
  | None => w
  end.

Definition start (c : Contracts) (env : Collaborators) (draws : list Draw) : World :=
  {| tasks := imap (createOrder c env) draws;
     relayerOrders := [];
     console := [];
     main := match draws with [] => OrdersCreated | _ => AwaitingAll end |}.

Definition run (env : Collaborators) (schedule : list nat) (w : World) : World :=
  foldl (deliver env) w schedule.





(** *** A run with two failures

    Three makers; the relayer refuses the fee request of the first and
    quotes no fees to the others, and the signer refuses the second. *)
Definition contracts : Contracts :=
  {| WETH_ADDRESS := "0xWETH"; ZRX_ADDRESS := "0xZRX"; EXCHANGE_ADDRESS := "0xEXCHANGE" |}.

Definition noFees : gmap string JsValue :=
  <["feeRecipient" := JString NULL_ADDRESS]>
  (<["makerFee" := JBigNumber 0]>
  (<["takerFee" := JBigNumber 0]> ∅)).

Definition refusing : Collaborators :=
  {| getFeesAsync request :=
       match request !! "maker" with
       | Some (JString m) => if String.eqb m "0xA" then None else Some noFees
       | _ => Some noFees
       end;
     getOrderHashHex order := "0xHASH";
     signOrderHashAsync orderHash signer :=
       if String.eqb signer "0xB" then None
       else Some {| Signature.v := 27; Signature.r := "0xR"; Signature.s := "0xS" |};
     submitOrderAsync signedOrder := Some () |}.

Definition threeMakers : list Draw :=
  [{| address := "0xA"; now := 1510000000000; pseudoRandomSalt := 1 |};
   {| address := "0xB"; now := 1510000000001; pseudoRandomSalt := 2 |};
   {| address := "0xC"; now := 1510000000002; pseudoRandomSalt := 3 |}].

End OrderFactory.

(** * Properties *)

(** ** Rounded division *)
Section Rounding.
Import BigNumber.

Lemma scale_pos : 0 < scale.
Proof. unfold scale. apply Z.pow_pos_nonneg; lia. Qed.

Lemma div_le_cross p1 q1 p2 q2 :
  0 < q1 → 0 < q2 → p1 * q2 ≤ p2 * q1 → p1 / q1 ≤ p2 / q2.
Proof.
  intros Hq1 Hq2 Hc.
  apply Z.div_le_lower_bound; [lia|].
  pose proof (Z.mul_div_le p1 q1 Hq1) as Hk.
  assert (q1 * (q2 * (p1 / q1)) ≤ q1 * p2) by nia.
  apply (Z.mul_le_mono_pos_l _ _ q1); assumption.
Qed.

Lemma div_lt_cross p1 q1 p2 q2 :
  0 < q1 → 0 < q2 → (p1 + q1) * q2 ≤ p2 * q1 → p1 / q1 < p2 / q2.
Proof.
  intros Hq1 Hq2 Hc.
  pose proof (div_le_cross (p1 + q1) q1 p2 q2 Hq1 Hq2 Hc) as Hle.
  replace (p1 + q1) with (p1 + 1 * q1) in Hle by lia.
  rewrite Z.div_add in Hle by lia. lia.
Qed.

Lemma round_half_up_nonneg x y :
  0 ≤ x → 0 < y → round_half_up x y = (2 * x + y) / (2 * y).
Proof.
  intros Hx Hy. unfold round_half_up.
  rewrite (Z.abs_eq x), (Z.abs_eq y), (Z.sgn_pos y) by lia.
  destruct (Z.eq_dec x 0) as [->|Hne].
  - simpl. rewrite Z.div_small; lia.
  - rewrite Z.sgn_pos by lia. lia.
Qed.

Lemma round_half_up_neg x y :
  x < 0 → 0 < y → round_half_up x y = - ((2 * - x + y) / (2 * y)).
Proof.
  intros Hx Hy. unfold round_half_up.
  rewrite (Z.abs_neq x), (Z.abs_eq y), (Z.sgn_pos y), (Z.sgn_neg x) by lia.
  lia.
Qed.

Lemma round_half_up_scaled x y k :
  0 < k → round_half_up (x * k) (y * k) = round_half_up x y.
Proof.
  intros Hk. unfold round_half_up.
  rewrite !Z.sgn_mul, !Z.abs_mul, (Z.sgn_pos k), (Z.abs_eq k) by lia.
  rewrite !Z.mul_1_r.
  destruct (Z.eq_dec y 0) as [->|Hy]; [by rewrite !Z.mul_0_r|].
  replace (2 * (Z.abs x * k) + Z.abs y * k)
    with ((2 * Z.abs x + Z.abs y) * k) by lia.
  replace (2 * (Z.abs y * k)) with (2 * Z.abs y * k) by lia.
  rewrite Z.div_mul_cancel_r by lia. reflexivity.
Qed.

(** A negative denominator moves its sign to the numerator. *)
Lemma round_half_up_normal x y :
  round_half_up x y = round_half_up (x * Z.sgn y) (Z.abs y).
Proof.
  unfold round_half_up. destruct y as [|p|p]; simpl Z.sgn; simpl Z.abs.
  - rewrite !Z.mul_0_r. reflexivity.
  - rewrite !Z.mul_1_r. reflexivity.
  - replace (x * -1) with (- x) by lia.
    rewrite Z.sgn_opp, Z.abs_opp, !Z.abs_idemp. ring.
Qed.

Lemma round_half_up_mono x1 y1 x2 y2 :
  0 < y1 → 0 < y2 → x1 * y2 ≤ x2 * y1 →
  round_half_up x1 y1 ≤ round_half_up x2 y2.
Proof.
  intros Hy1 Hy2 Hc.
  destruct (Z_lt_le_dec x1 0) as [Hx1|Hx1], (Z_lt_le_dec x2 0) as [Hx2|Hx2].
  - rewrite !round_half_up_neg by lia.
    apply Z.opp_le_mono. rewrite !Z.opp_involutive.
    apply div_le_cross; nia.
  - rewrite round_half_up_neg, round_half_up_nonneg by lia.
    assert (0 ≤ (2 * - x1 + y1) / (2 * y1)) by (apply Z.div_pos; lia).
    assert (0 ≤ (2 * x2 + y2) / (2 * y2)) by (apply Z.div_pos; lia).
    lia.
  - nia.
  - rewrite !round_half_up_nonneg by lia.
    apply div_le_cross; nia.
Qed.

(** Two quotients at least one apart round to different integers. *)
Lemma round_half_up_gap x1 y1 x2 y2 :
  0 < y1 → 0 < y2 → x1 * y2 + y1 * y2 ≤ x2 * y1 →
  round_half_up x1 y1 < round_half_up x2 y2.
Proof.
  intros Hy1 Hy2 Hc.
  destruct (Z_lt_le_dec x1 0) as [Hx1|Hx1], (Z_lt_le_dec x2 0) as [Hx2|Hx2].
  - rewrite !round_half_up_neg by lia.
    apply Z.opp_lt_mono. rewrite !Z.opp_involutive.
    apply div_lt_cross; nia.
  - rewrite round_half_up_neg, round_half_up_nonneg by lia.
    assert (0 ≤ (2 * - x1 + y1) / (2 * y1)) by (apply Z.div_pos; lia).
    assert (0 ≤ (2 * x2 + y2) / (2 * y2)) by (apply Z.div_pos; lia).
    destruct (Z_lt_le_dec (2 * - x1) y1) as [Hs|Hs].
    + assert (1 ≤ (2 * x2 + y2) / (2 * y2)); [|lia].
      apply Z.div_le_lower_bound; nia.
    + assert (1 ≤ (2 * - x1 + y1) / (2 * y1)); [|lia].
      apply Z.div_le_lower_bound; nia.
  - nia.
  - rewrite !round_half_up_nonneg by lia.
    apply div_lt_cross; nia.
Qed.

Lemma round_half_up_eq x1 y1 x2 y2 :
  y1 ≠ 0 → y2 ≠ 0 → x1 * y2 = x2 * y1 →
  round_half_up x1 y1 = round_half_up x2 y2.
Proof.
  intros Hy1 Hy2 Hc.
  rewrite (round_half_up_normal x1), (round_half_up_normal x2).
  assert (x1 * Z.sgn y1 * Z.abs y2 = x2 * Z.sgn y2 * Z.abs y1) as Hn.
  { destruct y1, y2; simpl; try lia; nia. }
  apply Z.le_antisymm; apply round_half_up_mono; lia.
Qed.

Lemma cross_scaled_le x1 y1 x2 y2 k :
  0 < k → x1 * y2 ≤ x2 * y1 → x1 * k * y2 ≤ x2 * k * y1.
Proof.
  intros Hk Hc.
  replace (x1 * k * y2) with (k * (x1 * y2)) by ring.
  replace (x2 * k * y1) with (k * (x2 * y1)) by ring.
  apply Z.mul_le_mono_nonneg_l; lia.
Qed.

Lemma cross_scaled_gap x1 y1 x2 y2 k :
  y1 * y2 ≤ k * (x2 * y1 - x1 * y2) → x1 * k * y2 + y1 * y2 ≤ x2 * k * y1.
Proof.
  intros Hc. rewrite Z.mul_sub_distr_l in Hc.
  replace (x1 * k * y2) with (k * (x1 * y2)) by ring.
  replace (x2 * k * y1) with (k * (x2 * y1)) by ring.
  lia.
Qed.

End Rounding.

(** ** The stable sort *)
Section SortFacts.
Import JsArray.
Context {A : Type} (comparefn : A → A → option Z).

Lemma insert_perm x l : insert comparefn x l ≡ₚ x :: l.
Proof.
  induction l as [|y l IH]; simpl; [done|].
  destruct (SortCompare comparefn x y <=? 0); [done|].
  rewrite IH. apply Permutation_swap.
Qed.

Lemma sorted_list_perm l : sorted_list comparefn l ≡ₚ l.
Proof.
  induction l as [|x l IH]; simpl; [done|].
  by rewrite insert_perm, IH.
Qed.

(** Elements that the comparator never puts one strictly after the other
    keep their relative order. *)
Section Stable.
Context (P : A → Prop) `{!∀ x, Decision (P x)}.
Hypothesis same_class :
  ∀ x y, P x → P y → SortCompare comparefn x y ≤ 0.

Lemma insert_stable x l :
  filter P (insert comparefn x l) = filter P (x :: l).
Proof using same_class.
  induction l as [|y l IH]; simpl; [done|].
  destruct (SortCompare comparefn x y <=? 0) eqn:Hc; [done|].
  apply Z.leb_gt in Hc.
  rewrite (filter_cons P y), IH, !filter_cons.
  destruct (decide (P x)) as [Hx|Hx], (decide (P y)) as [Hy|Hy];
    try done.
  specialize (same_class x y Hx Hy). lia.
Qed.

Lemma sorted_list_stable l :
  filter P (sorted_list comparefn l) = filter P l.
Proof using same_class.
  induction l as [|x l IH]; simpl; [done|].
  rewrite insert_stable, !filter_cons, IH. done.
Qed.
End Stable.

(** With a comparator that orders every pair one way or the other, the
    result is in order, and sorting it again leaves it as it is. *)
Section Ordered.
Let le (x y : A) : Prop := SortCompare comparefn x y ≤ 0.
Hypothesis le_total : ∀ x y, le x y ∨ le y x.

Lemma insert_head x l :
  HdRel le x l → insert comparefn x l = x :: l.
Proof.
  destruct 1 as [|y l Hxy]; simpl; [done|].
  unfold le in Hxy. apply Z.leb_le in Hxy. by rewrite Hxy.
Qed.

Lemma insert_sorted x l :
  Sorted le l → Sorted le (insert comparefn x l).
Proof using le_total.
  induction 1 as [|y l Hs IH Hhd]; simpl.
  - repeat constructor.
  - destruct (SortCompare comparefn x y <=? 0) eqn:Hc.
    + apply Z.leb_le in Hc. repeat constructor; assumption.
    + apply Z.leb_gt in Hc.
      assert (le y x) as Hyx by (destruct (le_total x y); unfold le in *; [lia|done]).
      constructor; [assumption|].
      destruct Hhd as [|z l Hyz]; simpl.
      * by constructor.
      * destruct (SortCompare comparefn x z <=? 0); by constructor.
Qed.

Lemma sorted_list_sorted l : Sorted le (sorted_list comparefn l).
Proof using le_total.
  induction l; simpl; [constructor|by apply insert_sorted].
Qed.

Lemma sorted_list_fixed l :
  Sorted le l → sorted_list comparefn l = l.
Proof.
  induction 1 as [|x l Hs IH Hhd]; simpl; [done|].
  rewrite IH. by apply insert_head.
Qed.

Lemma sorted_list_idempotent l :
  sorted_list comparefn (sorted_list comparefn l) = sorted_list comparefn l.
Proof using le_total. apply sorted_list_fixed, sorted_list_sorted. Qed.
End Ordered.

End SortFacts.

(** ** Ranking *)
Section RankFacts.
Import BigNumber JsArray OrderBook.

Lemma orderRate_units o :
  takerTokenAmount o ≠ 0 → orderRate o = Finite (rateUnits o).
Proof.
  intros Ht. unfold orderRate, of_Z, div, rateUnits.
  pose proof scale_pos as Hs.
  destruct (Z.eqb_spec (takerTokenAmount o * scale) 0) as [H0|_]; [nia|].
  by rewrite round_half_up_scaled.
Qed.

Lemma comparedTo_refl r : default 0 (comparedTo r r) = 0.
Proof.
  destruct r as [|[]|u]; simpl; try done. by rewrite Z.compare_refl.
Qed.

Lemma SortCompare_units a b :
  takerTokenAmount a ≠ 0 → takerTokenAmount b ≠ 0 →
  compareOrders a b
  = Some (match rateUnits b ?= rateUnits a with Lt => -1 | Eq => 0 | Gt => 1 end).
Proof.
  intros Ha Hb. unfold compareOrders.
  by rewrite !orderRate_units.
Qed.

Lemma SortCompare_le a b :
  takerTokenAmount a ≠ 0 → takerTokenAmount b ≠ 0 →
  SortCompare compareOrders a b ≤ 0 ↔ rateUnits b ≤ rateUnits a.
Proof.
  intros Ha Hb. unfold SortCompare. rewrite SortCompare_units by done. simpl.
  destruct (Z.compare_spec (rateUnits b) (rateUnits a)); lia.
Qed.

(** The comparator orders every pair one way or the other. *)
Lemma compareOrders_total a b :
  SortCompare compareOrders a b ≤ 0 ∨ SortCompare compareOrders b a ≤ 0.
Proof.
  unfold SortCompare, compareOrders.
  destruct (orderRate a) as [|[]|ua], (orderRate b) as [|[]|ub]; simpl;
    try lia.
  destruct (Z.compare_spec ub ua), (Z.compare_spec ua ub); lia.
Qed.

Lemma rank_perm l : rank l ≡ₚ l.
Proof. apply sorted_list_perm. Qed.

Lemma rank_elem_of e l : e ∈ rank l ↔ e ∈ l.
Proof. by rewrite rank_perm. Qed.

Lemma rank_Forall (P : SignedOrder → Prop) l : Forall P l → Forall P (rank l).
Proof. intros H. by rewrite rank_perm. Qed.




Lemma filter_ext_Forall {A} (R P Q : A → Prop)
    `{!∀ x, Decision (P x)} `{!∀ x, Decision (Q x)} l :
  Forall R l → (∀ x, R x → (P x ↔ Q x)) → filter P l = filter Q l.
Proof.
  intros Hl HPQ. induction Hl as [|x l Hx Hl IH]; [done|].
  rewrite !filter_cons, IH.
  destruct (decide (P x)) as [HP|HP], (decide (Q x)) as [HQ|HQ]; try done;
    apply HPQ in Hx; tauto.
Qed.

Lemma rank_idempotent l : rank (rank l) = rank l.
Proof. apply sorted_list_idempotent, compareOrders_total. Qed.

Lemma rank_stable_rate r l :
  filter (λ x, orderRate x = r) (rank l) = filter (λ x, orderRate x = r) l.
Proof.
  apply sorted_list_stable. intros x y Hx Hy.
  unfold SortCompare, compareOrders. rewrite Hx, Hy, comparedTo_refl. lia.
Qed.

Lemma equal_rates_units a b :
  takerTokenAmount a ≠ 0 → takerTokenAmount b ≠ 0 →
  OrderBookAggregator.compareExactRates a b = Eq → rateUnits a = rateUnits b.
Proof.
  intros Ha Hb Hc. apply Z.compare_eq in Hc. unfold rateUnits.
  apply round_half_up_eq; [done..|].
  replace (makerTokenAmount a * scale * takerTokenAmount b)
    with (makerTokenAmount a * takerTokenAmount b * scale) by ring.
  rewrite Hc. ring.
Qed.

End RankFacts.

(** ** Claims on ranking *)
Section RankClaims.
Import BigNumber JsArray OrderBook OrderBookAggregator.




(** C7: [rank] is a stable sort.  On entries with non-zero taker amounts
    (their rates are numbers, so that the comparator is a consistent
    comparison and the language fixes the result of [sort]), the entries of
    one rate are in the result in the order they were fetched in, both for
    the rate the program computes and, a fortiori, for the exact rate
    (equality of [makerAmount / takerAmount] by cross-multiplication); and
    ranking a ranked sequence returns it unchanged. *)
Theorem rank_stable_idempotent l :
  Forall (λ e, takerTokenAmount e ≠ 0) l →
  (∀ r, filter (λ x, orderRate x = r) (rank l)
        = filter (λ x, orderRate x = r) l)
  ∧ (∀ e, takerTokenAmount e ≠ 0 →
       filter (λ x, compareExactRates x e = Eq) (rank l)
       = filter (λ x, compareExactRates x e = Eq) l)
  ∧ rank (rank l) = rank l.
Proof.
  intros Hl. split; [|split].
  - intros r. apply rank_stable_rate.
  - intros e He.
    rewrite (filter_ext_Forall (λ e, takerTokenAmount e ≠ 0)
               (λ x, compareExactRates x e = Eq)
               (λ x, takerTokenAmount x ≠ 0 ∧ compareExactRates x e = Eq) l),
            (filter_ext_Forall (λ e, takerTokenAmount e ≠ 0)
               (λ x, compareExactRates x e = Eq)
               (λ x, takerTokenAmount x ≠ 0 ∧ compareExactRates x e = Eq) (rank l));
      [|by apply rank_Forall|tauto|done|tauto].
    apply sorted_list_stable.
    intros x y [Hx Hxe] [Hy Hye].
    apply SortCompare_le; [done..|].
    rewrite (equal_rates_units x e), (equal_rates_units y e) by done. lia.
  - apply rank_idempotent.
Qed.

Lemma rank_stable_idempotent_witness :
  let a := entry 1 2 in
  let b := entry 2 4 in
  let c := entry 3 2 in
  rank [a; b; c] = [c; a; b]
  ∧ filter (λ x, compareExactRates x a = Eq) (rank [a; b; c]) = [a; b]
  ∧ rank (rank [a; b; c]) = rank [a; b; c].
Proof.
  intros a b c.
  assert (Forall (λ e, takerTokenAmount e ≠ 0) [a; b; c]) as Hl
    by (repeat constructor; simpl; lia).
  destruct (rank_stable_idempotent [a; b; c] Hl) as (_ & Hexact & Hidem).
  split; [vm_compute; reflexivity|]. split; [|exact Hidem].
  rewrite (Hexact a) by (simpl; lia). vm_compute. reflexivity.
Defined.

(** C2, as the code has it.  An entry with a non-positive amount or an
    expiration not after the current timestamp fails the usability test;
    the program runs no such test before ranking, and [rank] returns every
    entry it is given, such an entry included. *)
Theorem rank_keeps_unusable_entries entries nowTimestamp e :
  makerTokenAmount e ≤ 0 ∨ takerTokenAmount e ≤ 0
    ∨ expirationUnixTimestampSec e ≤ nowTimestamp →
  validate e nowTimestamp = false
  ∧ (e ∈ rank entries ↔ e ∈ entries)
  ∧ rank entries ≡ₚ entries.
Proof.
  intros Hbad. split; [|split; [apply rank_elem_of|apply rank_perm]].
  unfold validate. rewrite !andb_false_iff, !Z.ltb_ge. tauto.
Qed.

Lemma rank_keeps_unusable_entries_witness :
  let stale := entry 500 10 in
  validate stale 1 = false ∧ stale ∈ rank [entry 450 10; stale].
Proof.
  intros stale.
  destruct (rank_keeps_unusable_entries [entry 450 10; stale] 1 stale)
    as (Hv & Hin & _).
  - right; right. simpl. lia.
  - split; [exact Hv|]. apply Hin. apply list_elem_of_In. simpl. tauto.
Defined.

(** C2 as stated fails: an expired entry is in the output of [rank]. *)
Lemma rank_drops_unusable_counterexample :
  ¬ (∀ entries nowTimestamp e,
       e ∈ entries →
       makerTokenAmount e ≤ 0 ∨ takerTokenAmount e ≤ 0
         ∨ expirationUnixTimestampSec e ≤ nowTimestamp →
       validate e nowTimestamp = false ∧ e ∉ rank entries).
Proof.
  intros H.
  destruct (H [entry 500 10] 1 (entry 500 10)) as [_ Hout].
  - apply list_elem_of_In. simpl. tauto.
  - right; right. simpl. lia.
  - apply Hout. apply list_elem_of_In. vm_compute. tauto.
Qed.

(** C9: ranking sorts the fetched array in place.  [bestOrders] is the
    reference [orderbookResponse.bids] itself; after the sort that array
    holds the ranked sequence, no array has been created and every other
    array is as it was; so when ranking changed the order, an array that
    still holds the fetched sequence is another array that held it
    before. *)
Theorem bestOrders_in_place resp (σ : gmap ref (list SignedOrder)) fetched :
  σ !! bids resp = Some fetched →
  let (best, σ') := bestOrders resp σ in
  best = bids resp
  ∧ σ' !! bids resp = Some (rank fetched)
  ∧ read best σ' = rank fetched
  ∧ read (bids resp) σ' = rank fetched
  ∧ dom σ' = dom σ
  ∧ (∀ a, a ≠ bids resp → σ' !! a = σ !! a)
  ∧ (rank fetched ≠ fetched →
     ∀ a, σ' !! a = Some fetched → a ≠ bids resp ∧ σ !! a = Some fetched).
Proof.
  intros Hb. unfold bestOrders, sort, read. simpl.
  assert (alter (sorted_list compareOrders) (bids resp) σ !! bids resp
          = Some (rank fetched)) as Hnew.
  { by rewrite lookup_alter_eq, Hb. }
  repeat split.
  - exact Hnew.
  - by rewrite Hnew.
  - by rewrite Hnew.
  - apply dom_alter_L.
  - intros a Ha. by apply lookup_alter_ne.
  - intros ->. congruence.
  - destruct (decide (a = bids resp)) as [->|Ha]; [congruence|].
    match goal with Hl : alter _ _ _ !! a = _ |- _ =>
      by rewrite lookup_alter_ne in Hl end.
Qed.

Lemma bestOrders_in_place_witness :
  let resp := {| bids := 1%positive; asks := 2%positive |} in
  let σ : gmap ref (list SignedOrder) :=
    <[1%positive := [entry 500 10; entry 600 10]]> (<[2%positive := []]> ∅) in
  (bestOrders resp σ).1 = bids resp
  ∧ read (bids resp) (bestOrders resp σ).2 = [entry 600 10; entry 500 10].
Proof.
  intros resp σ.
  assert (σ !! bids resp = Some [entry 500 10; entry 600 10]) as Hb
    by reflexivity.
  pose proof (bestOrders_in_place resp σ _ Hb) as H.
  destruct (bestOrders resp σ) as [best σ'].
  destruct H as (Hbest & _ & _ & Hread & _).
  split; [exact Hbest|]. change ((best, σ').2) with σ'.
  rewrite Hread. vm_compute. reflexivity.
Defined.

(** C1, as the code has it.  The comparator of [rank] compares the two
    rates as computed by [BigNumber] division, that is rounded to 20
    decimal places (half up), not by cross-multiplication.  For entries
    with positive taker amounts the result never inverts the exact order
    of the rates: entries of equal exact rate compare equal, and entries
    of different exact rates compare in the exact order or equal; they
    compare in the exact order whenever the exact rates are at least
    [10 ^ -20] apart. *)
Theorem compareOrders_rounded_rates a b :
  0 < takerTokenAmount a → 0 < takerTokenAmount b →
  compareOrders a b
    = comparedTo (Finite (round_half_up (makerTokenAmount b * scale) (takerTokenAmount b)))
                 (Finite (round_half_up (makerTokenAmount a * scale) (takerTokenAmount a)))
  ∧ (compareExactRates a b = Eq → compareOrders a b = Some 0)
  ∧ (compareExactRates a b = Gt →
     compareOrders a b = Some (-1) ∨ compareOrders a b = Some 0)
  ∧ (compareExactRates a b = Lt →
     compareOrders a b = Some 1 ∨ compareOrders a b = Some 0)
  ∧ (takerTokenAmount a * takerTokenAmount b
       ≤ scale * (makerTokenAmount a * takerTokenAmount b
                  - makerTokenAmount b * takerTokenAmount a) →
     compareOrders a b = Some (-1))
  ∧ (takerTokenAmount a * takerTokenAmount b
       ≤ scale * (makerTokenAmount b * takerTokenAmount a
                  - makerTokenAmount a * takerTokenAmount b) →
     compareOrders a b = Some 1).
Proof.
  intros Ha Hb. pose proof scale_pos as Hs.
  rewrite SortCompare_units by lia.
  unfold compareExactRates, rateUnits. simpl.
  set (ma := makerTokenAmount a) in *. set (ta := takerTokenAmount a) in *.
  set (mb := makerTokenAmount b) in *. set (tb := takerTokenAmount b) in *.
  split; [reflexivity|]. split; [|split; [|split; [|split]]].
  - intros Heq. apply Z.compare_eq in Heq.
    rewrite (round_half_up_eq (mb * scale) tb (ma * scale) ta); [|lia..|].
    + by rewrite Z.compare_refl.
    + apply Z.le_antisymm; apply cross_scaled_le; lia.
  - intros Hgt. apply Z.compare_gt_iff in Hgt.
    assert (round_half_up (mb * scale) tb ≤ round_half_up (ma * scale) ta) as Hle
      by (apply round_half_up_mono; [lia..|apply cross_scaled_le; lia]).
    destruct (Z.compare_spec (round_half_up (mb * scale) tb)
                (round_half_up (ma * scale) ta)); [by right|by left|lia].
  - intros Hlt. change (ma * tb < mb * ta) in Hlt.
    assert (round_half_up (ma * scale) ta ≤ round_half_up (mb * scale) tb) as Hle
      by (apply round_half_up_mono; [lia..|apply cross_scaled_le; lia]).
    destruct (Z.compare_spec (round_half_up (mb * scale) tb)
                (round_half_up (ma * scale) ta)); [by right|lia|by left].
  - intros Hgap.
    assert (round_half_up (mb * scale) tb < round_half_up (ma * scale) ta) as Hlt.
    { apply round_half_up_gap; [lia..|]. apply cross_scaled_gap.
      rewrite (Z.mul_comm tb ta). exact Hgap. }
    apply Z.compare_lt_iff in Hlt. by rewrite Hlt.
  - intros Hgap.
    assert (round_half_up (ma * scale) ta < round_half_up (mb * scale) tb) as Hlt.
    { apply round_half_up_gap; [lia..|]. by apply cross_scaled_gap. }
    apply Z.compare_gt_iff in Hlt. by rewrite Hlt.
Qed.

Lemma compareOrders_rounded_rates_witness :
  compareOrders (entry 600 10) (entry 500 10) = Some (-1).
Proof.
  destruct (compareOrders_rounded_rates (entry 600 10) (entry 500 10))
    as (_ & _ & _ & _ & Hgap & _); [simpl; lia..|].
  apply Hgap. vm_compute. discriminate.
Defined.

Example near_equal_rates_tie :
  let a := entry 1 3 in
  let b := entry 333333333333333333334 (10 ^ 21) in
  compareExactRates a b = Lt
  ∧ orderRate a = Finite 33333333333333333333
  ∧ orderRate b = Finite 33333333333333333333
  ∧ compareOrders a b = Some 0
  ∧ rank [a; b] = [a; b].
Proof. vm_compute. repeat split. Qed.

(** C1 as stated fails: two entries whose exact rates differ, 1/3 and
    333333333333333333334/10^21, have the same quotient to 20 decimal
    places and compare equal, so [rank] leaves the better one second. *)
Lemma compareOrders_exact_counterexample :
  ¬ (∀ a b, 0 < takerTokenAmount a → 0 < takerTokenAmount b →
       (compareExactRates a b = Gt → compareOrders a b = Some (-1))
       ∧ (compareExactRates a b = Lt → compareOrders a b = Some 1)).
Proof.
  intros H.
  destruct (H (entry 1 3) (entry 333333333333333333334 (10 ^ 21)))
    as [_ Hlt]; [simpl; lia..|].
  specialize (Hlt eq_refl). vm_compute in Hlt. discriminate.
Qed.

End RankClaims.

(** ** Fill planning *)
Section FillFacts.
Import OrderBook FillExecutor.

Lemma totalAllocated_app p q :
  totalAllocated (p ++ q) = totalAllocated p + totalAllocated q.
Proof.
  unfold totalAllocated. induction p as [|x p IH]; simpl; [done|].
  rewrite IH. lia.
Qed.

Lemma totalAllocated_full filled :
  totalAllocated (fullAllocations filled) = totalAvailable filled.
Proof.
  unfold totalAllocated, totalAvailable, fullAllocations.
  induction filled as [|x l IH]; simpl; [done|]. by rewrite IH.
Qed.

(** The shape of a successful walk: full allocations up to the entry with
    which the running total reaches the target, which ends the plan. *)
Lemma walk_inr entries total target allowPartial plan :
  total < target →
  walk entries total target allowPartial = inr plan →
  ∃ filled e rest,
    entries = filled ++ e :: rest
    ∧ total + totalAvailable filled < target
    ∧ target ≤ total + totalAvailable filled + takerTokenAmount e
    ∧ plan = fullAllocations filled
             ++ [(e, if allowPartial
                     then target - (total + totalAvailable filled)
                     else takerTokenAmount e)].
Proof.
  revert total plan. induction entries as [|x entries IH]; intros total plan Hlt;
    simpl; [discriminate|].
  destruct (Z.leb_spec target (total + takerTokenAmount x)) as [Hreach|Hnot].
  - intros [= <-]. exists [], x, entries. simpl.
    rewrite Z.add_0_r. repeat split; [done|lia].
  - destruct (walk entries (total + takerTokenAmount x) target allowPartial)
      as [err|plan'] eqn:Hw; [discriminate|].
    intros [= <-].
    destruct (IH _ _ Hnot Hw) as (filled & e & rest & -> & Hbelow & Hreach & ->).
    exists (x :: filled), e, rest. simpl.
    replace (total + (takerTokenAmount x + totalAvailable filled))
      with (total + takerTokenAmount x + totalAvailable filled) by lia.
    repeat split; [lia|lia].
Qed.

Lemma walk_inl entries total target allowPartial err :
  total < target →
  walk entries total target allowPartial = inl err →
  err = InsufficientLiquidity ∧ total + totalAvailable entries < target.
Proof.
  revert total. induction entries as [|x entries IH]; intros total Hlt; simpl.
  - intros [= <-]. split; [done|lia].
  - destruct (Z.leb_spec target (total + takerTokenAmount x)) as [Hreach|Hnot];
      [discriminate|].
    destruct (walk entries (total + takerTokenAmount x) target allowPartial)
      as [err'|plan'] eqn:Hw; [|discriminate].
    intros [= <-]. destruct (IH _ Hnot Hw) as [-> Hsum]. split; [done|lia].
Qed.

(** Amounts are unsigned quantities; with them a walk over entries that
    hold less than the target in total comes to the end of the entries. *)
Lemma walk_exhausted entries total target allowPartial :
  Forall (λ e, 0 ≤ takerTokenAmount e) entries →
  total + totalAvailable entries < target →
  walk entries total target allowPartial = inl InsufficientLiquidity.
Proof.
  intros Hpos. revert total.
  induction Hpos as [|x entries Hx Hpos IH]; intros total Hsum; simpl in *;
    [done|].
  assert (0 ≤ totalAvailable entries) as Hnn.
  { clear -Hpos. induction Hpos; simpl; [lia|].
    unfold totalAvailable in *; simpl; lia. }
  destruct (Z.leb_spec target (total + takerTokenAmount x)) as [Hreach|Hnot];
    [unfold totalAvailable in *; simpl in *; lia|].
  rewrite IH; [done|]. unfold totalAvailable in *; simpl in *; lia.
Qed.

(** C3: for a positive target [planFill] walks the ranked sequence in
    order.  It succeeds whenever the entries hold the target in total, and a
    plan it returns takes in full every entry before the one with which the
    running total reaches the target, and ends with that entry: allocated
    the remainder when [allowPartial], so that the total allocated is the
    target, and allocated in full otherwise, so that the total allocated is
    at least the target; the entries after it are not in the plan.  On
    (600,10), (500,10), (450,10) with target 15 the allocations are 10 and
    5 with [allowPartial] and 10 and 10, in total 20, without. *)
Theorem planFill_walk entries target allowPartial :
  0 < target →
  (target ≤ totalAvailable entries →
   ∃ plan, planFill entries target allowPartial = inr plan)
  ∧ (∀ plan, planFill entries target allowPartial = inr plan →
     ∃ filled e rest,
       entries = filled ++ e :: rest
       ∧ totalAvailable filled < target
       ∧ target ≤ totalAvailable filled + takerTokenAmount e
       ∧ plan = fullAllocations filled
                ++ [(e, if allowPartial then target - totalAvailable filled
                        else takerTokenAmount e)]
       ∧ totalAllocated plan
         = (if allowPartial then target
            else totalAvailable filled + takerTokenAmount e)
       ∧ target ≤ totalAllocated plan)
  ∧ planFill [entry 600 10; entry 500 10; entry 450 10] 15 true
    = inr [(entry 600 10, 10); (entry 500 10, 5)]
  ∧ planFill [entry 600 10; entry 500 10; entry 450 10] 15 false
    = inr [(entry 600 10, 10); (entry 500 10, 10)].
Proof.
  intros Htarget. unfold planFill.
  destruct (Z.leb_spec target 0) as [?|_]; [lia|].
  split; [|split; [|split; reflexivity]].
  - intros Hsum.
    destruct (walk entries 0 target allowPartial) as [err|plan] eqn:Hw;
      [|by eexists].
    apply walk_inl in Hw as [_ Hless]; lia.
  - intros plan Hw.
    apply walk_inr in Hw as (filled & e & rest & -> & Hbelow & Hreach & ->);
      [|done].
    rewrite !Z.add_0_l in *.
    exists filled, e, rest. repeat split; try done.
    + rewrite totalAllocated_app, totalAllocated_full.
      unfold totalAllocated. simpl. destruct allowPartial; lia.
    + rewrite totalAllocated_app, totalAllocated_full.
      unfold totalAllocated. simpl. destruct allowPartial; lia.
Qed.

Lemma planFill_walk_witness :
  ∃ plan, planFill [entry 600 10; entry 500 10; entry 450 10] 25 true = inr plan
          ∧ totalAllocated plan = 25.
Proof.
  destruct (planFill_walk [entry 600 10; entry 500 10; entry 450 10] 25 true)
    as (Hsome & Hshape & _); [lia|].
  destruct Hsome as [plan Hplan]; [vm_compute; discriminate|].
  exists plan. split; [exact Hplan|].
  destruct (Hshape plan Hplan) as (? & ? & ? & _ & _ & _ & _ & Htotal & _).
  exact Htotal.
Defined.

(** C4: [planFill] fails with [InvalidTarget] for every target that is not
    positive, and with [InsufficientLiquidity] for every positive target
    that the entries (of unsigned amounts) do not hold in total; a failure
    carries no plan. *)
Theorem planFill_failures entries target allowPartial :
  (target ≤ 0 → planFill entries target allowPartial = inl InvalidTarget)
  ∧ (0 < target →
     Forall (λ e, 0 ≤ takerTokenAmount e) entries →
     totalAvailable entries < target →
     planFill entries target allowPartial = inl InsufficientLiquidity)
  ∧ (∀ err, planFill entries target allowPartial = inl err →
     ∀ plan, planFill entries target allowPartial ≠ inr plan).
Proof.
  unfold planFill. split; [|split].
  - intros Hle. destruct (Z.leb_spec target 0); [done|lia].
  - intros Hpos Hamounts Hsum. destruct (Z.leb_spec target 0); [lia|].
    by apply walk_exhausted.
  - intros err -> plan. discriminate.
Qed.

Lemma planFill_failures_witness :
  planFill [entry 600 10; entry 500 10] 0 true = inl InvalidTarget
  ∧ planFill [entry 600 10; entry 500 10] 21 true = inl InsufficientLiquidity.
Proof.
  split.
  - apply (planFill_failures [entry 600 10; entry 500 10] 0 true). lia.
  - apply (planFill_failures [entry 600 10; entry 500 10] 21 true).
    + lia.
    + repeat constructor; simpl; lia.
    + vm_compute. reflexivity.
Defined.

End FillFacts.

(** ** Order objects *)
Section OrderFacts.
Import OrderFactory.


Lemma spread_lookup_request (feesRequest feesResponse : gmap string JsValue) k :
  feesResponse !! k = None →
  spread feesRequest feesResponse !! k = feesRequest !! k.
Proof. intros Hk. unfold spread. by apply lookup_union_r. Qed.


Lemma isFeesResponse_other (feesResponse : gmap string JsValue) k :
  isFeesResponse feesResponse → k ∉ feeFields → feesResponse !! k = None.
Proof.
  intros Hty Hk. destruct (feesResponse !! k) eqn:Hl; [|done].
  exfalso. apply Hk, Hty. by rewrite Hl.
Qed.

Lemma noFees_isFeesResponse : isFeesResponse noFees.
Proof.
  intros k [v Hk]. unfold noFees, feeFields in *.
  rewrite !elem_of_cons.
  repeat (rewrite lookup_insert in Hk; case_decide as Hkey;
          [rewrite <- Hkey; tauto|clear Hkey]).
  by rewrite lookup_empty in Hk.
Qed.

Lemma feesRequest_expiration c index d :
  feesRequest c index d !! "expirationUnixTimestampSec"
  = Some (JBigNumber (now d + 3600000)).
Proof. unfold feesRequest. by simplify_map_eq. Qed.

(** A property that the response has overrides the skeleton's, whatever
    its name: the merge itself does not tell fee properties from others. *)
Example spread_overrides :
  spread (<["maker" := JString "0xA"]> ∅) (<["maker" := JString "0xB"]> ∅)
    !! "maker" = Some (JString "0xB").
Proof. reflexivity. Qed.



End OrderFacts.

(** ** Tasks and their join *)
Section TaskFacts.
Import OrderFactory.
Context (env : Collaborators).















Lemma run_app s1 s2 w : run env (s1 ++ s2) w = run env s2 (run env s1 w).
Proof. unfold run. apply foldl_app. Qed.









End TaskFacts.

(** ** Claims on order creation *)
Section CreationClaims.
Import OrderFactory.




(** The order a task submits is its fee request, merged with the fee
    response and signed. *)
Lemma createOrder_submissions c env index d so :
  so ∈ submissions env (createOrder c env index d) →
  ∃ feesResponse ecSignature,
    getFeesAsync env (feesRequest c index d) = Some feesResponse
    ∧ so = <["ecSignature" := JSignature ecSignature]>
             (spread (feesRequest c index d) feesResponse).
Proof.
  unfold createOrder, mbind, Async_bind, await. simpl.
  destruct (getFeesAsync env _) as [feesResponse|]; simpl;
    [|by intros ?%elem_of_nil].
  destruct (signOrderHashAsync env _ _) as [ecSignature|]; simpl;
    [|by intros ?%elem_of_nil].
  destruct (submitOrderAsync env _); simpl; [|by intros ?%elem_of_nil].
  intros ->%list_elem_of_singleton. by eexists _, _.
Qed.

Example three_makers_run :
  let w := run refusing [0; 1; 2; 1; 2; 2]%nat (start contracts refusing threeMakers) in
  tasks w = [Throw FeeRequestFailure; Throw SigningFailure; Return ()]
  ∧ console w = [FeeRequestFailure]
  ∧ main w = Caught FeeRequestFailure
  ∧ length (relayerOrders w) = 1%nat.
Proof. vm_compute. repeat split. Qed.




(** C10: every order the program builds has [expirationUnixTimestampSec]
    equal to [Date.now() + 3600000], a number of milliseconds in a field
    of seconds: the fee request has it, the response of type [FeesResponse]
    leaves it, and the order submitted carries it.  It is a thousand times
    the expiration meant (one hour after creation, in seconds) up to the
    milliseconds of the creation time; it is past the creation time, and it
    is past every time that comes before a thousand times itself.
    ([Date.now()] is a time after the epoch, of at most 15 digits.) *)
Theorem order_expiration c env index d :
  0 ≤ now d < 10 ^ 15 - 3600000 →
  (∀ request response,
     getFeesAsync env request = Some response → isFeesResponse response) →
  feesRequest c index d !! "expirationUnixTimestampSec"
    = Some (JBigNumber (now d + 3600000))
  ∧ (∀ feesResponse, isFeesResponse feesResponse →
       spread (feesRequest c index d) feesResponse !! "expirationUnixTimestampSec"
       = Some (JBigNumber (now d + 3600000)))
  ∧ (∀ so, so ∈ submissions env (createOrder c env index d) →
       so !! "expirationUnixTimestampSec" = Some (JBigNumber (now d + 3600000)))
  ∧ now d + 3600000 = 1000 * (now d / 1000 + 3600) + now d mod 1000
  ∧ now d / 1000 < now d + 3600000
  ∧ now d < now d + 3600000
  ∧ (∀ later, later < 1000 * (now d + 3600000) →
       later / 1000 < now d + 3600000).
Proof.
  intros Hnow Hty.
  assert (∀ feesResponse, isFeesResponse feesResponse →
            spread (feesRequest c index d) feesResponse
              !! "expirationUnixTimestampSec"
            = Some (JBigNumber (now d + 3600000))) as Hmerged.
  { intros feesResponse Hresp.
    rewrite spread_lookup_request; [apply feesRequest_expiration|].
    apply isFeesResponse_other; [done|].
    unfold feeFields. rewrite !elem_of_cons, elem_of_nil.
    intros [?|[?|[?|[]]]]; discriminate. }
  split; [apply feesRequest_expiration|]. split; [exact Hmerged|].
  split; [|split; [|split; [|split]]].
  - intros so (feesResponse & ecSignature & Hfees & ->)%createOrder_submissions.
    rewrite lookup_insert_ne by discriminate.
    apply Hmerged. by eapply Hty.
  - pose proof (Z.div_mod (now d) 1000). lia.
  - pose proof (Z.div_mod (now d) 1000).
    pose proof (Z.mod_pos_bound (now d) 1000). lia.
  - lia.
  - intros later Hlater. apply Z.div_lt_upper_bound; lia.
Qed.

Lemma order_expiration_witness :
  feesRequest contracts 0 {| address := "0xC"; now := 1510000000002; pseudoRandomSalt := 3 |}
    !! "expirationUnixTimestampSec" = Some (JBigNumber 1510003600002)
  ∧ 1510000000002 / 1000 < 1510003600002.
Proof.
  destruct (order_expiration contracts refusing 0
              {| address := "0xC"; now := 1510000000002; pseudoRandomSalt := 3 |})
    as (Hreq & _ & _ & _ & Hpast & _).
  - simpl. lia.
  - intros request response. simpl.
    destruct (request !! "maker") as [[m| |]|];
      try (intros [= <-]; apply noFees_isFeesResponse).
    destruct (String.eqb m "0xA"); [discriminate|].
    intros [= <-]. apply noFees_isFeesResponse.
  - split; [exact Hreq|exact Hpast].
Defined.

End CreationClaims.
